(** * CacheTemplate: an in-memory cache with per-entry expiration

    Shallow embedding of [main.go] (package [main]) and the properties of its
    three operations [Set], [Get] and [Has].

    Modelling choices.
    - [map[string]CacheItem] is a [gmap string CacheItem]; [delete] and the
      indexed assignment are stdpp's [delete] and insert.
    - [int64] values ([expiration], [ttl], Unix seconds) are integers of [Z];
      the one arithmetic operation of the program, [time.Now().Unix() + ttl],
      wraps around as Go's signed addition does ([Int64.add]).
    - [interface{}] is an arbitrary type [V] with a distinguished element for
      Go's [nil].
    - [error] is [option string]: [None] is Go's [nil] error, [Some msg] an
      error built by [fmt.Errorf(msg)].
    - The receiver [c *Cache] is mutated in place; here every method takes the
      cache and returns the cache it leaves behind.
    - Every call of [time.Now().Unix()] is an argument of the method that makes
      it, one argument per call site, so that the theorems quantify over what
      the clock answers.
    - The methods are embedded as one thread runs them: [c.mx] guards nothing
      there and is left out. *)

From stdpp Require Import gmap strings.
From Stdlib Require Import ZArith Lia.

Local Open Scope Z_scope.

(** ** Machine integers *)

Module Int64.

Definition min_int : Z := - 2 ^ 63.
Definition max_int : Z := 2 ^ 63 - 1.

Definition in_range (z : Z) : Prop := min_int <= z <= max_int.

(** Two's complement reduction of an integer to the [int64] range. *)
Definition wrap (z : Z) : Z := (z + 2 ^ 63) mod 2 ^ 64 - 2 ^ 63.

(** Go's [+] on [int64]. *)
Definition add (a b : Z) : Z := wrap (a + b).

End Int64.

(** ** Errors *)

Definition error : Type := option string.

Definition ErrKeyNotFound : string := "key not found".
Definition ErrKeyExists : string := "key already exists".
Definition ErrExpired : string := "key expired".

(** [fmt.Errorf] on a format without verbs: the error carries the format. *)
Definition fmt_Errorf (format : string) : error := Some format.

(** ** Data model *)

Record CacheItem (V : Type) : Type := mkCacheItem {
  value : V;
  expiration : Z
}.
Arguments mkCacheItem {V} _ _.
Arguments value {V} _.
Arguments expiration {V} _.

Record Cache (V : Type) : Type := mkCache {
  data : gmap string (CacheItem V)
}.
Arguments mkCache {V} _.
Arguments data {V} _.

Section Methods.

Context {V : Type}.

(** Go's [nil] of type [interface{}]. *)
Variable nil_value : V.

(** The zero [CacheItem], what indexing a map at a missing key yields. *)
Definition zero_item : CacheItem V :=
  {| value := nil_value; expiration := 0 |}.

(** [NewCache]: an empty map, then every option applied in order. *)
Definition NewCache (options : list (Cache V -> Cache V)) : Cache V :=
  fold_left (fun c option => option c) options {| data := ∅ |}.

(** The test of [Set] on the item found under the key (line 58);
    [now] is the value of [time.Now().Unix()] there. *)
Definition Set_blocked (d : CacheItem V) (now : Z) : bool :=
  (expiration d =? 0) || (expiration d >? now).

(** The expiration [Set] computes (lines 63-67): the zero value of
    [int64] unless [ttl > 0]. *)
Definition Set_expiration (ttl now : Z) : Z :=
  if ttl >? 0 then Int64.add now ttl else 0.

(** [Cache.Set]. [now_check] is the clock read by the test of line 58,
    [now_write] the clock read at line 66. *)
Definition Cache_Set (key : string) (val : V) (ttl : Z)
    (now_check now_write : Z) (c : Cache V) : error * Cache V :=
  let blocked :=
    match data c !! key with
    | Some d => Set_blocked d now_check
    | None => false
    end in
  if blocked then (fmt_Errorf ErrKeyExists, c)
  else
    let expiration := Set_expiration ttl now_write in
    (None,
     {| data := <[key := {| value := val; expiration := expiration |}]> (data c) |}).

(** The test of [Has] on the item found under the key (line 108). *)
Definition Has_expired (d : CacheItem V) (now : Z) : bool :=
  negb (expiration d =? 0) && (expiration d <? now).

(** [Cache.Has]. [now] is the clock read at line 108. *)
Definition Cache_Has (key : string) (now : Z) (c : Cache V)
    : bool * error * Cache V :=
  match data c !! key with
  | None => (false, fmt_Errorf ErrKeyNotFound, c)
  | Some d =>
      if Has_expired d now
      then (false, fmt_Errorf ErrExpired, {| data := delete key (data c) |})
      else (true, None, c)
  end.

(** [Cache.Get]. The clock is read by the call of [Has] only. *)
Definition Cache_Get (key : string) (now : Z) (c : Cache V)
    : V * error * Cache V :=
  let '(_, err, c') := Cache_Has key now c in
  match err with
  | Some _ => (nil_value, err, c')
  | None => (value (default zero_item (data c' !! key)), None, c')
  end.

(** *** Clients

    A call of one of the three methods, with the clock readings it is
    given, and the cache a sequence of calls leaves behind. *)
Inductive call : Type :=
| CallSet (key : string) (val : V) (ttl now_check now_write : Z)
| CallGet (key : string) (now : Z)
| CallHas (key : string) (now : Z).

Definition run_call (c : Cache V) (op : call) : Cache V :=
  match op with
  | CallSet key val ttl now_check now_write =>
      snd (Cache_Set key val ttl now_check now_write c)
  | CallGet key now => snd (Cache_Get key now c)
  | CallHas key now => snd (Cache_Has key now c)
  end.

Definition run_calls (ops : list call) (c : Cache V) : Cache V :=
  fold_left run_call ops c.

End Methods.

(** ** The methods, lock by lock

    [Set] and [Has] take [c.mx] twice: once to copy the item found under the
    key into the local [d, ok] (lines 54-56 and 101-103) and, when they decide
    to, once more to write (lines 69-74) or to delete (lines 109-111). The
    decision in between is taken on the local copy. Below, the part of each
    method that follows the copy is a function of that copy and of the cache
    it meets when it runs, which is the cache the copy was taken from only
    when no other call ran in between. *)

Section Locked.

Context {V : Type}.

(** [c.mx.RLock(); d, ok := c.data[key]; c.mx.RUnlock()]. *)
Definition locked_read (key : string) (c : Cache V) : option (CacheItem V) :=
  data c !! key.

(** [c.mx.Lock(); c.data[key] = CacheItem{...}; c.mx.Unlock()],
    with the expiration of lines 63-67. *)
Definition locked_write (key : string) (val : V) (ttl now : Z) (c : Cache V)
    : Cache V :=
  {| data := <[key := {| value := val; expiration := Set_expiration ttl now |}]> (data c) |}.

(** [c.mx.Lock(); delete(c.data, key); c.mx.Unlock()]. *)
Definition locked_delete (key : string) (c : Cache V) : Cache V :=
  {| data := delete key (data c) |}.

(** Lines 57-76 of [Set], given the copy [found] of lines 54-56. *)
Definition Set_after_read (found : option (CacheItem V)) (key : string)
    (val : V) (ttl now_check now_write : Z) (c : Cache V) : error * Cache V :=
  let blocked :=
    match found with
    | Some d => Set_blocked d now_check
    | None => false
    end in
  if blocked then (fmt_Errorf ErrKeyExists, c)
  else (None, locked_write key val ttl now_write c).

(** Lines 104-115 of [Has], given the copy [found] of lines 101-103. *)
Definition Has_after_read (found : option (CacheItem V)) (key : string)
    (now : Z) (c : Cache V) : bool * error * Cache V :=
  match found with
  | None => (false, fmt_Errorf ErrKeyNotFound, c)
  | Some d =>
      if Has_expired d now
      then (false, fmt_Errorf ErrExpired, locked_delete key c)
      else (true, None, c)
  end.

(** The key a call is made with, and whether the call is a [Set] on [k]. *)
Definition call_key (op : call (V := V)) : string :=
  match op with
  | CallSet key _ _ _ _ => key
  | CallGet key _ => key
  | CallHas key _ => key
  end.

Definition call_sets (k : string) (op : call (V := V)) : bool :=
  match op with
  | CallSet key _ _ _ _ => bool_decide (key = k)
  | CallGet _ _ => false
  | CallHas _ _ => false
  end.

End Locked.

(** ** Values of the examples

    A few of the values an [interface{}] can hold, with its [nil]. *)
Inductive boxed : Type :=
| Nil
| Int (n : Z)
| Str (s : string).

(** The cache after [Set(key, val, ttl)] on a new cache, the clock at [now]. *)
Definition cache_after_Set (key : string) (val : boxed) (ttl now : Z) : Cache boxed :=
  snd (Cache_Set key val ttl now now (NewCache [])).

(** ** Elementary facts *)

Section Facts.

Context {V : Type}.
Variable nil_value : V.

Implicit Types (d : CacheItem V) (c : Cache V) (key k : string).

Lemma errors_distinct :
  ErrKeyNotFound ≠ ErrKeyExists ∧ ErrKeyNotFound ≠ ErrExpired
  ∧ ErrKeyExists ≠ ErrExpired.
Proof. repeat split; discriminate. Qed.

Lemma Int64_wrap_in_range z : Int64.in_range z → Int64.wrap z = z.
Proof.
  unfold Int64.in_range, Int64.min_int, Int64.max_int, Int64.wrap.
  intros Hz. rewrite Z.mod_small; lia.
Qed.

Lemma Int64_wrap_range z : Int64.in_range (Int64.wrap z).
Proof.
  unfold Int64.in_range, Int64.min_int, Int64.max_int, Int64.wrap.
  pose proof (Z.mod_pos_bound (z + 2 ^ 63) (2 ^ 64)). lia.
Qed.

(** The two tests, as propositions. *)
Lemma Set_blocked_true d now :
  Set_blocked d now = true ↔ expiration d = 0 ∨ now < expiration d.
Proof.
  unfold Set_blocked. rewrite orb_true_iff, Z.eqb_eq, Z.gtb_ltb, Z.ltb_lt.
  reflexivity.
Qed.

Lemma Set_blocked_false d now :
  Set_blocked d now = false ↔ expiration d ≠ 0 ∧ expiration d <= now.
Proof.
  unfold Set_blocked. rewrite orb_false_iff, Z.eqb_neq, Z.gtb_ltb, Z.ltb_ge.
  reflexivity.
Qed.

Lemma Has_expired_true d now :
  Has_expired d now = true ↔ expiration d ≠ 0 ∧ expiration d < now.
Proof.
  unfold Has_expired.
  rewrite andb_true_iff, negb_true_iff, Z.eqb_neq, Z.ltb_lt. reflexivity.
Qed.

Lemma Has_expired_false d now :
  Has_expired d now = false ↔ expiration d = 0 ∨ now <= expiration d.
Proof.
  unfold Has_expired.
  rewrite andb_false_iff, negb_false_iff, Z.eqb_eq, Z.ltb_ge. reflexivity.
Qed.

Lemma Set_expiration_pos ttl now :
  0 < ttl → Set_expiration ttl now = Int64.add now ttl.
Proof.
  intros H. unfold Set_expiration. rewrite Z.gtb_ltb.
  destruct (0 <? ttl) eqn:E; [done | apply Z.ltb_ge in E; lia].
Qed.

Lemma Set_expiration_nonpos ttl now : ttl <= 0 → Set_expiration ttl now = 0.
Proof.
  intros H. unfold Set_expiration. rewrite Z.gtb_ltb.
  destruct (0 <? ttl) eqn:E; [apply Z.ltb_lt in E; lia | done].
Qed.

(** *** [Set], case by case *)

Lemma Cache_Set_blocked key val ttl t t' c d :
  data c !! key = Some d → Set_blocked d t = true →
  Cache_Set key val ttl t t' c = (fmt_Errorf ErrKeyExists, c).
Proof. intros Hd Hb. unfold Cache_Set. by rewrite Hd, Hb. Qed.

Lemma Cache_Set_absent key val ttl t t' c :
  data c !! key = None →
  Cache_Set key val ttl t t' c
  = (None, {| data := <[key := mkCacheItem val (Set_expiration ttl t')]> (data c) |}).
Proof. intros Hd. unfold Cache_Set. by rewrite Hd. Qed.

Lemma Cache_Set_lapsed key val ttl t t' c d :
  data c !! key = Some d → Set_blocked d t = false →
  Cache_Set key val ttl t t' c
  = (None, {| data := <[key := mkCacheItem val (Set_expiration ttl t')]> (data c) |}).
Proof. intros Hd Hb. unfold Cache_Set. by rewrite Hd, Hb. Qed.

(** A successful [Set] has written its item, whatever was there. *)
Lemma Cache_Set_ok_inv key val ttl t t' c c1 :
  Cache_Set key val ttl t t' c = (None, c1) →
  c1 = {| data := <[key := mkCacheItem val (Set_expiration ttl t')]> (data c) |}.
Proof.
  unfold Cache_Set.
  destruct (match data c !! key with Some d => Set_blocked d t | None => false end);
    [discriminate | by intros [= <-]].
Qed.

Lemma Cache_Set_ok_lookup key val ttl t t' c c1 :
  Cache_Set key val ttl t t' c = (None, c1) →
  data c1 !! key = Some (mkCacheItem val (Set_expiration ttl t')).
Proof.
  intros ->%Cache_Set_ok_inv. simpl. apply lookup_insert_eq.
Qed.

(** *** [Has] and [Get], case by case *)

Lemma Cache_Has_absent key t c :
  data c !! key = None →
  Cache_Has key t c = (false, fmt_Errorf ErrKeyNotFound, c).
Proof. intros Hd. unfold Cache_Has. by rewrite Hd. Qed.

Lemma Cache_Has_live key t c d :
  data c !! key = Some d → Has_expired d t = false →
  Cache_Has key t c = (true, None, c).
Proof. intros Hd He. unfold Cache_Has. by rewrite Hd, He. Qed.

Lemma Cache_Has_expired key t c d :
  data c !! key = Some d → Has_expired d t = true →
  Cache_Has key t c
  = (false, fmt_Errorf ErrExpired, {| data := delete key (data c) |}).
Proof. intros Hd He. unfold Cache_Has. by rewrite Hd, He. Qed.

Lemma Cache_Get_absent key t c :
  data c !! key = None →
  Cache_Get nil_value key t c = (nil_value, fmt_Errorf ErrKeyNotFound, c).
Proof. intros Hd. unfold Cache_Get. by rewrite (Cache_Has_absent _ _ _ Hd). Qed.

Lemma Cache_Get_live key t c d :
  data c !! key = Some d → Has_expired d t = false →
  Cache_Get nil_value key t c = (value d, None, c).
Proof.
  intros Hd He. unfold Cache_Get.
  rewrite (Cache_Has_live _ _ _ _ Hd He). by rewrite Hd.
Qed.

Lemma Cache_Get_expired key t c d :
  data c !! key = Some d → Has_expired d t = true →
  Cache_Get nil_value key t c
  = (nil_value, fmt_Errorf ErrExpired, {| data := delete key (data c) |}).
Proof.
  intros Hd He. unfold Cache_Get. by rewrite (Cache_Has_expired _ _ _ _ Hd He).
Qed.

(** [Get] leaves the cache that its call of [Has] leaves. *)
Lemma Cache_Get_cache key t c :
  snd (Cache_Get nil_value key t c) = snd (Cache_Has key t c).
Proof.
  unfold Cache_Get. destruct (Cache_Has key t c) as [[b [e|]] c']; done.
Qed.

End Facts.

(** ** Frame and preservation lemmas *)

Section Frame.

Context {V : Type}.
Variable nil_value : V.

Implicit Types (d : CacheItem V) (c : Cache V) (key k : string).

Lemma Cache_Set_other key val ttl t t' c k :
  key ≠ k →
  data (snd (Cache_Set key val ttl t t' c)) !! k = data c !! k.
Proof.
  intros Hne. unfold Cache_Set.
  destruct (match data c !! key with Some d => Set_blocked d t | None => false end);
    simpl; [done | by apply lookup_insert_ne].
Qed.

Lemma Cache_Has_other key t c k :
  key ≠ k → data (snd (Cache_Has key t c)) !! k = data c !! k.
Proof.
  intros Hne. unfold Cache_Has.
  destruct (data c !! key) as [d|]; [|done].
  destruct (Has_expired d t); simpl; [by apply lookup_delete_ne | done].
Qed.

Lemma Cache_Get_other key t c k :
  key ≠ k → data (snd (Cache_Get nil_value key t c)) !! k = data c !! k.
Proof. intros Hne. rewrite Cache_Get_cache. by apply Cache_Has_other. Qed.

(** [Has] either leaves the cache alone or deletes the key it was asked. *)
Lemma Cache_Has_cache key t c :
  snd (Cache_Has key t c) = c
  ∨ snd (Cache_Has key t c) = {| data := delete key (data c) |}.
Proof.
  unfold Cache_Has. destruct (data c !! key) as [d|]; [|by left].
  destruct (Has_expired d t); [by right | by left].
Qed.

(** An item stored without expiration survives every call. *)
Lemma run_call_keeps_unexpiring c k d (op : call) :
  data c !! k = Some d → expiration d = 0 →
  data (run_call nil_value c op) !! k = Some d.
Proof.
  intros Hd H0.
  assert (Hb : ∀ t, Set_blocked d t = true)
    by (intros t; apply Set_blocked_true; by left).
  assert (He : ∀ t, Has_expired d t = false)
    by (intros t; apply Has_expired_false; by left).
  destruct op as [key val ttl t t'|key t|key t]; simpl;
    destruct (decide (key = k)) as [->|Hne].
  - by rewrite (Cache_Set_blocked _ _ _ _ _ _ _ Hd (Hb t)).
  - by rewrite Cache_Set_other.
  - by rewrite (Cache_Get_live nil_value _ _ _ _ Hd (He t)).
  - by rewrite Cache_Get_other.
  - by rewrite (Cache_Has_live _ _ _ _ Hd (He t)).
  - by rewrite Cache_Has_other.
Qed.

Lemma run_calls_keeps_unexpiring (ops : list call) c k d :
  data c !! k = Some d → expiration d = 0 →
  data (run_calls nil_value ops c) !! k = Some d.
Proof.
  revert c. induction ops as [|op ops IH]; intros c Hd H0; [done|].
  simpl. apply IH; [|done]. by apply run_call_keeps_unexpiring.
Qed.

(** What [Get] answers for an unexpiring item, after any calls. *)
Lemma Cache_Get_unexpiring_after (ops : list call) c k d t :
  data c !! k = Some d → expiration d = 0 →
  Cache_Get nil_value k t (run_calls nil_value ops c)
  = (value d, None, run_calls nil_value ops c).
Proof.
  intros Hd H0. apply Cache_Get_live with (d := d).
  - by apply run_calls_keeps_unexpiring.
  - apply Has_expired_false. by left.
Qed.

(** A written item is read back until [Has] finds it expired. *)
Lemma Cache_Get_after_write key val e t c :
  e = 0 ∨ t <= e →
  let c' := {| data := <[key := mkCacheItem val e]> (data c) |} in
  Cache_Get nil_value key t c' = (val, None, c').
Proof.
  intros He c'.
  apply (Cache_Get_live nil_value key t c' (mkCacheItem val e)).
  - apply lookup_insert_eq.
  - by apply Has_expired_false.
Qed.

End Frame.

(** When [Set] refuses and when [Has] accepts: the two tests agree except
    on an item whose expiration is the very second the clock shows. *)
Lemma Cache_Set_refuses_iff {V : Type} (key : string) (val : V) ttl t t' (c : Cache V) :
  fst (Cache_Set key val ttl t t' c) = fmt_Errorf ErrKeyExists
  ↔ ∃ d, data c !! key = Some d ∧ (expiration d = 0 ∨ t < expiration d).
Proof.
  unfold Cache_Set. destruct (data c !! key) as [d|] eqn:Hd.
  - destruct (Set_blocked d t) eqn:Hb; simpl.
    + apply Set_blocked_true in Hb. split; [intros _; by exists d | done].
    + apply Set_blocked_false in Hb. split; [done|].
      intros (d' & [= <-] & H). lia.
  - simpl. split; [done | by intros (d & ? & _)].
Qed.

Lemma Cache_Has_accepts_iff {V : Type} (key : string) t (c : Cache V) :
  fst (Cache_Has key t c) = (true, None)
  ↔ ∃ d, data c !! key = Some d ∧ (expiration d = 0 ∨ t <= expiration d).
Proof.
  unfold Cache_Has. destruct (data c !! key) as [d|] eqn:Hd.
  - destruct (Has_expired d t) eqn:He; simpl.
    + apply Has_expired_true in He. split; [done|].
      intros (d' & [= <-] & H). lia.
    + apply Has_expired_false in He. split; [intros _; by exists d | done].
  - simpl. split; [done | by intros (d & ? & _)].
Qed.

(** ** The properties of the specification *)

Section Properties.

Context {V : Type}.
Variable nil_value : V.

Implicit Types (d : CacheItem V) (c : Cache V) (k : string) (v : V).

(** C1 (no clobber while live). After [Set k v1 ttl] has succeeded, a later
    [Set k v2 ttl2] made while the stored item is unexpiring (as [ttl = 0]
    makes it) or before its expiration fails with [ErrKeyExists] and leaves
    the cache as it was; [Get k], for as long as [Has] holds the item live,
    answers [v1]. "Before its expiration" is the clock of the second [Set]
    strictly below the stored expiration. *)
Theorem C1_Set_no_clobber_while_live k v1 v2 ttl ttl2 t0 t1 t2 t2' c c1 :
  Cache_Set k v1 ttl t0 t1 c = (None, c1) →
  Set_expiration ttl t1 = 0 ∨ t2 < Set_expiration ttl t1 →
  Cache_Set k v2 ttl2 t2 t2' c1 = (fmt_Errorf ErrKeyExists, c1)
  ∧ ∀ t3, Set_expiration ttl t1 = 0 ∨ t3 <= Set_expiration ttl t1 →
      Cache_Get nil_value k t3 (snd (Cache_Set k v2 ttl2 t2 t2' c1)) = (v1, None, c1).
Proof.
  intros Hset Hlive.
  pose proof (Cache_Set_ok_lookup _ _ _ _ _ _ _ Hset) as Hd.
  assert (Hrefused : Cache_Set k v2 ttl2 t2 t2' c1 = (fmt_Errorf ErrKeyExists, c1)).
  { apply Cache_Set_blocked with (d := mkCacheItem v1 (Set_expiration ttl t1)); [done|].
    by apply Set_blocked_true. }
  split; [done|]. intros t3 Ht3. rewrite Hrefused. simpl.
  apply (Cache_Get_live nil_value k t3 c1 _ Hd). by apply Has_expired_false.
Qed.

(** C3 (overwrite after expiry). On a key whose stored item has an expiration
    (not the zero of an unexpiring item) strictly below the clock, [Set]
    succeeds and replaces the item by the new value with expiration
    [now + ttl2] in [int64] arithmetic if [ttl2 > 0] (the exact sum when it
    fits [int64]) and [0] otherwise; [Get], up to the new expiration,
    answers the new value. *)
Theorem C3_Set_overwrites_expired k v2 ttl2 t t' c d :
  data c !! k = Some d → expiration d ≠ 0 → expiration d < t →
  ∃ e2,
    Cache_Set k v2 ttl2 t t' c
    = (None, {| data := <[k := mkCacheItem v2 e2]> (data c) |})
    ∧ (0 < ttl2 → e2 = Int64.add t' ttl2)
    ∧ (0 < ttl2 → Int64.in_range (t' + ttl2) → e2 = t' + ttl2)
    ∧ (ttl2 <= 0 → e2 = 0)
    ∧ ∀ t3, e2 = 0 ∨ t3 <= e2 →
        Cache_Get nil_value k t3 (snd (Cache_Set k v2 ttl2 t t' c))
        = (v2, None, snd (Cache_Set k v2 ttl2 t t' c)).
Proof.
  intros Hd Hne Hlt. exists (Set_expiration ttl2 t').
  assert (Hw : Cache_Set k v2 ttl2 t t' c
    = (None, {| data := <[k := mkCacheItem v2 (Set_expiration ttl2 t')]> (data c) |})).
  { apply Cache_Set_lapsed with (d := d); [done|]. apply Set_blocked_false. lia. }
  repeat split.
  - exact Hw.
  - apply Set_expiration_pos.
  - intros Hpos Hr. rewrite Set_expiration_pos by done.
    by apply Int64_wrap_in_range.
  - apply Set_expiration_nonpos.
  - intros t3 Ht3. rewrite Hw. simpl. by apply Cache_Get_after_write.
Qed.

(** C4 (lazy deletion, [ErrExpired] once). On a key whose stored item has an
    expiration strictly below the clock, [Has] answers [(false, ErrExpired)]
    and [Get] answers [(nil, ErrExpired)], either call leaving the cache
    without the key; whichever of [Has] and [Get] comes next, at any clock,
    answers [ErrKeyNotFound]. *)
Theorem C4_expired_reported_once k t c d :
  data c !! k = Some d → expiration d ≠ 0 → expiration d < t →
  let c' := {| data := delete k (data c) |} in
  Cache_Has k t c = (false, fmt_Errorf ErrExpired, c')
  ∧ Cache_Get nil_value k t c = (nil_value, fmt_Errorf ErrExpired, c')
  ∧ data c' !! k = None
  ∧ ∀ t', Cache_Has k t' c' = (false, fmt_Errorf ErrKeyNotFound, c')
          ∧ Cache_Get nil_value k t' c' = (nil_value, fmt_Errorf ErrKeyNotFound, c').
Proof.
  intros Hd Hne Hlt c'.
  assert (He : Has_expired d t = true) by (by apply Has_expired_true).
  assert (Hgone : data c' !! k = None) by apply lookup_delete_eq.
  repeat split.
  - by apply Cache_Has_expired with (d := d).
  - by apply Cache_Get_expired with (d := d).
  - exact Hgone.
  - by apply Cache_Has_absent.
  - by apply Cache_Get_absent.
Qed.

(** C5 (never expiring). After [Set k v 0] has succeeded, [Get k] answers
    [v] without error at every clock, whatever calls of [Set], [Get] and
    [Has] were made in between: none of them overwrites the item. *)
Theorem C5_ttl_zero_never_expires k v t0 t1 c c1 (ops : list call) t :
  Cache_Set k v 0 t0 t1 c = (None, c1) →
  Cache_Get nil_value k t (run_calls nil_value ops c1) = (v, None, run_calls nil_value ops c1).
Proof.
  intros Hset.
  apply (Cache_Get_unexpiring_after nil_value ops c1 k (mkCacheItem v 0) t);
    [|done].
  by rewrite (Cache_Set_ok_lookup _ _ _ _ _ _ _ Hset).
Qed.

(** C6 ([Has], three ways). A key absent from the store: [(false,
    ErrKeyNotFound)], store unchanged. A key present with expiration [0] or
    not below the clock: [(true, nil)], store unchanged. A key present with
    an expiration (other than [0]) strictly below the clock:
    [(false, ErrExpired)], and the key deleted. Every store falls under
    one of the three. *)
Theorem C6_Has_three_way k t c :
  (data c !! k = None →
     Cache_Has k t c = (false, fmt_Errorf ErrKeyNotFound, c))
  ∧ (∀ d, data c !! k = Some d → expiration d = 0 ∨ t <= expiration d →
     Cache_Has k t c = (true, None, c))
  ∧ (∀ d, data c !! k = Some d → expiration d ≠ 0 → expiration d < t →
     Cache_Has k t c = (false, fmt_Errorf ErrExpired, {| data := delete k (data c) |})
     ∧ data (snd (Cache_Has k t c)) !! k = None)
  ∧ (data c !! k = None
     ∨ (∃ d, data c !! k = Some d ∧ (expiration d = 0 ∨ t <= expiration d))
     ∨ (∃ d, data c !! k = Some d ∧ expiration d ≠ 0 ∧ expiration d < t)).
Proof.
  repeat split.
  - apply Cache_Has_absent.
  - intros d Hd Hl. apply Cache_Has_live with (d := d); [done|].
    by apply Has_expired_false.
  - apply Cache_Has_expired with (d := d); [done|]. by apply Has_expired_true.
  - rewrite (Cache_Has_expired k t c d) by (done || by apply Has_expired_true).
    apply lookup_delete_eq.
  - destruct (data c !! k) as [d|]; [|by left]. right.
    destruct (Has_expired d t) eqn:He.
    + right. exists d. apply Has_expired_true in He. by split.
    + left. exists d. apply Has_expired_false in He. by split.
Qed.

(** C7 ([Get] follows [Has]). When [Has] reports an error, which is
    [ErrKeyNotFound] for an absent key and [ErrExpired] for an expired one,
    [Get] answers [nil] with that same error and leaves the cache [Has]
    leaves (the expired key already deleted). When [Has] answers
    [(true, nil)], [Get] answers the stored value without error and the
    cache is unchanged. *)
Theorem C7_Get_follows_Has k t c :
  match Cache_Has k t c with
  | (b, Some e, c') =>
      b = false
      ∧ Cache_Get nil_value k t c = (nil_value, Some e, c')
      ∧ ((e = ErrKeyNotFound ∧ data c !! k = None ∧ c' = c)
         ∨ (e = ErrExpired ∧ is_Some (data c !! k)
            ∧ c' = {| data := delete k (data c) |}))
  | (b, None, c') =>
      b = true ∧ c' = c
      ∧ ∃ d, data c !! k = Some d ∧ Cache_Get nil_value k t c = (value d, None, c)
  end.
Proof.
  destruct (data c !! k) as [d|] eqn:Hd.
  - destruct (Has_expired d t) eqn:He.
    + rewrite (Cache_Has_expired _ _ _ _ Hd He).
      rewrite (Cache_Get_expired nil_value _ _ _ _ Hd He).
      repeat split. right. by repeat split.
    + rewrite (Cache_Has_live _ _ _ _ Hd He).
      repeat split. exists d. split; [done|]. by apply Cache_Get_live.
  - rewrite (Cache_Has_absent _ _ _ Hd), (Cache_Get_absent nil_value _ _ _ Hd).
    repeat split. by left.
Qed.

(** C8 (the empty key). [Set] on the empty string succeeds whenever the store
    holds no item for it that [Set] takes for live (none at all, or one with
    an expiration other than [0] and not above the clock), and [Get] on the
    empty string then answers the value, up to the expiration [Set] stored. *)
Theorem C8_empty_key_accepted v ttl t t' c :
  (∀ d, data c !! "" = Some d → expiration d ≠ 0 ∧ expiration d <= t) →
  let c1 := {| data := <["" := mkCacheItem v (Set_expiration ttl t')]> (data c) |} in
  Cache_Set "" v ttl t t' c = (None, c1)
  ∧ ∀ t3, Set_expiration ttl t' = 0 ∨ t3 <= Set_expiration ttl t' →
      Cache_Get nil_value "" t3 c1 = (v, None, c1).
Proof.
  intros Hnl c1. split.
  - destruct (data c !! "") as [d|] eqn:Hd.
    + apply Cache_Set_lapsed with (d := d); [done|].
      apply Set_blocked_false. by apply Hnl.
    + by apply Cache_Set_absent.
  - intros t3 Ht3. by apply Cache_Get_after_write.
Qed.

(** C9 (non-positive ttl). For every [ttl <= 0], negative ones included, a
    successful [Set k v ttl] stores the item with expiration [0]; [Get k]
    then answers [v] without error at every clock, whatever calls were made
    in between. *)
Theorem C9_nonpositive_ttl_never_expires k v ttl t0 t1 c c1 (ops : list call) t :
  ttl <= 0 →
  Cache_Set k v ttl t0 t1 c = (None, c1) →
  data c1 !! k = Some (mkCacheItem v 0)
  ∧ Cache_Get nil_value k t (run_calls nil_value ops c1) = (v, None, run_calls nil_value ops c1).
Proof.
  intros Httl Hset.
  assert (Hd : data c1 !! k = Some (mkCacheItem v 0)).
  { rewrite (Cache_Set_ok_lookup _ _ _ _ _ _ _ Hset).
    by rewrite Set_expiration_nonpos. }
  split; [done|].
  by apply (Cache_Get_unexpiring_after nil_value ops c1 k (mkCacheItem v 0) t).
Qed.

(** C10 (frame). A call made with key [k] leaves the item of every other key
    [k'] as it was: [Set] writes under [k] only, [Has] leaves the store alone
    or deletes [k], and [Get] leaves the store that [Has] leaves. *)
Theorem C10_other_keys_untouched k k' v ttl t t' c :
  k ≠ k' →
  data (snd (Cache_Set k v ttl t t' c)) !! k' = data c !! k'
  ∧ data (snd (Cache_Has k t c)) !! k' = data c !! k'
  ∧ data (snd (Cache_Get nil_value k t c)) !! k' = data c !! k'
  ∧ (snd (Cache_Has k t c) = c
     ∨ snd (Cache_Has k t c) = {| data := delete k (data c) |})
  ∧ snd (Cache_Get nil_value k t c) = snd (Cache_Has k t c).
Proof.
  intros Hne. repeat split.
  - by apply Cache_Set_other.
  - by apply Cache_Has_other.
  - by apply Cache_Get_other.
  - apply Cache_Has_cache.
  - apply Cache_Get_cache.
Qed.

End Properties.

(** ** The boundary second

    C2. [Set] does not refuse exactly when [Has] accepts. An item whose
    expiration is the second the clock shows is live for [Has] and [Get]
    ([expiration < now] fails) and lapsed for [Set] ([expiration > now]
    fails): [Set("k", 1, 5)] at second 95 stores expiration 100; at second
    100, [Has("k")] answers [(true, nil)] and [Get("k")] answers 1, yet
    [Set("k", 2, 5)] succeeds and replaces the item. *)
Theorem C2_Set_overwrites_at_expiration_second :
  let c1 := cache_after_Set "k" (Int 1) 5 95 in
  data c1 !! "k" = Some (mkCacheItem (Int 1) 100)
  ∧ Cache_Has "k" 100 c1 = (true, None, c1)
  ∧ Cache_Get Nil "k" 100 c1 = (Int 1, None, c1)
  ∧ Cache_Set "k" (Int 2) 5 100 100 c1
    = (None, {| data := {[ "k" := mkCacheItem (Int 2) 105 ]} |}).
Proof. vm_compute. repeat split. Qed.

(** The two tests disagree on the boundary second and nowhere else. *)
Lemma Set_Has_disagree_iff {V : Type} (d : CacheItem V) (now : Z) :
  Set_blocked d now ≠ negb (Has_expired d now)
  ↔ expiration d ≠ 0 ∧ expiration d = now.
Proof.
  destruct (Set_blocked d now) eqn:Hb, (Has_expired d now) eqn:He; simpl;
    repeat match goal with
    | H : Set_blocked _ _ = true |- _ => apply Set_blocked_true in H
    | H : Set_blocked _ _ = false |- _ => apply Set_blocked_false in H
    | H : Has_expired _ _ = true |- _ => apply Has_expired_true in H
    | H : Has_expired _ _ = false |- _ => apply Has_expired_false in H
    end;
    split; try done; try lia.
Qed.

(** ** The scenarios of the specification *)

Example scenario_A :
  let c := cache_after_Set "a" (Int 1) 0 1000 in
  Cache_Get Nil "a" 1000 c = (Int 1, None, c).
Proof. vm_compute. reflexivity. Qed.

Example scenario_B :
  let c := cache_after_Set "b" (Int 1) 1 1000 in
  let c' := snd (Cache_Get Nil "b" 1002 c) in
  fst (Cache_Get Nil "b" 1002 c) = (Nil, fmt_Errorf ErrExpired)
  ∧ fst (Cache_Get Nil "b" 1002 c') = (Nil, fmt_Errorf ErrKeyNotFound).
Proof. vm_compute. split; reflexivity. Qed.

Example scenario_C :
  let c := cache_after_Set "c" (Int 1) 100 1000 in
  Cache_Set "c" (Int 2) 100 1000 1000 c = (fmt_Errorf ErrKeyExists, c)
  ∧ fst (Cache_Get Nil "c" 1000 c) = (Int 1, None).
Proof. vm_compute. split; reflexivity. Qed.

Example scenario_D :
  let c := cache_after_Set "d" (Int 1) 1 1000 in
  let r := Cache_Set "d" (Int 2) 100 1002 1002 c in
  fst r = None ∧ fst (Cache_Get Nil "d" 1002 (snd r)) = (Int 2, None).
Proof. vm_compute. split; reflexivity. Qed.

Example scenario_E :
  Cache_Has "e" 1000 (NewCache (V := boxed) [])
  = (false, fmt_Errorf ErrKeyNotFound, NewCache []).
Proof. vm_compute. reflexivity. Qed.

(** A sum beyond [int64] wraps: the item is stored already expired. *)
Example ttl_overflow :
  let c := cache_after_Set "o" (Int 1) Int64.max_int 1000 in
  data c !! "o" = Some (mkCacheItem (Int 1) (Int64.min_int + 999))
  ∧ fst (Cache_Get Nil "o" 1000 c) = (Nil, fmt_Errorf ErrExpired).
Proof. vm_compute. split; reflexivity. Qed.

(** ** Instances *)

Lemma C1_witness :
  let c1 := {| data := {[ "c" := mkCacheItem (Int 1) 1100 ]} |} in
  Cache_Set "c" (Int 1) 100 1000 1000 (NewCache []) = (None, c1)
  ∧ Cache_Set "c" (Int 2) 100 1010 1010 c1 = (fmt_Errorf ErrKeyExists, c1)
  ∧ Cache_Get Nil "c" 1100 c1 = (Int 1, None, c1).
Proof.
  intros c1.
  assert (Hset : Cache_Set "c" (Int 1) 100 1000 1000 (NewCache []) = (None, c1))
    by (vm_compute; reflexivity).
  assert (Hlive : Set_expiration 100 1000 = 0 ∨ 1010 < Set_expiration 100 1000)
    by (right; vm_compute; reflexivity).
  destruct (C1_Set_no_clobber_while_live Nil "c" (Int 1) (Int 2) 100 100
              1000 1000 1010 1010 (NewCache []) c1 Hset Hlive) as [H1 H2].
  split; [exact Hset|]. split; [exact H1|].
  rewrite H1 in H2. apply (H2 1100). right. vm_compute. discriminate.
Defined.

Lemma C3_witness :
  let c := cache_after_Set "d" (Int 1) 1 1000 in
  data c !! "d" = Some (mkCacheItem (Int 1) 1001)
  ∧ 1001 < 1002
  ∧ ∃ e2, Cache_Set "d" (Int 2) 100 1002 1003 c
          = (None, {| data := <["d" := mkCacheItem (Int 2) e2]> (data c) |})
          ∧ e2 = 1103.
Proof.
  intros c.
  assert (Hd : data c !! "d" = Some (mkCacheItem (Int 1) 1001))
    by (vm_compute; reflexivity).
  split; [exact Hd|]. split; [lia|].
  destruct (C3_Set_overwrites_expired Nil "d" (Int 2) 100 1002 1003 c
              (mkCacheItem (Int 1) 1001) Hd) as (e2 & Hw & _ & Hsum & _).
  - simpl. lia.
  - simpl. lia.
  - exists e2. split; [exact Hw|]. apply Hsum; [lia|].
    unfold Int64.in_range, Int64.min_int, Int64.max_int. lia.
Defined.

Lemma C4_witness :
  let c := cache_after_Set "b" (Int 1) 1 1000 in
  let c' := {| data := delete "b" (data c) |} in
  Cache_Has "b" 1002 c = (false, fmt_Errorf ErrExpired, c')
  ∧ Cache_Get Nil "b" 1002 c' = (Nil, fmt_Errorf ErrKeyNotFound, c').
Proof.
  intros c c'.
  destruct (C4_expired_reported_once Nil "b" 1002 c (mkCacheItem (Int 1) 1001))
    as (HHas & _ & _ & Hnext).
  - vm_compute. reflexivity.
  - simpl. lia.
  - simpl. lia.
  - split; [exact HHas | apply (Hnext 1002)].
Defined.

Lemma C5_witness :
  let c1 := cache_after_Set "a" (Int 1) 0 1000 in
  let ops := [CallSet "a" (Int 2) 0 2000 2000; CallHas "a" 3000;
              CallSet "z" (Str "w") 1 3000 3000; CallGet "z" 4000] in
  fst (Cache_Get Nil "a" 5000 (run_calls Nil ops c1)) = (Int 1, None).
Proof.
  intros c1 ops.
  rewrite (C5_ttl_zero_never_expires Nil "a" (Int 1) 1000 1000 (NewCache []) c1
             ops 5000); [reflexivity|].
  vm_compute. reflexivity.
Defined.

Lemma C6_witness :
  let c := cache_after_Set "b" (Int 1) 1 1000 in
  Cache_Has "e" 1000 c = (false, fmt_Errorf ErrKeyNotFound, c)
  ∧ Cache_Has "b" 1001 c = (true, None, c)
  ∧ Cache_Has "b" 1002 c
    = (false, fmt_Errorf ErrExpired, {| data := delete "b" (data c) |}).
Proof.
  intros c.
  assert (Hd : data c !! "b" = Some (mkCacheItem (Int 1) 1001))
    by (vm_compute; reflexivity).
  split; [|split].
  - apply (C6_Has_three_way "e" 1000 c). vm_compute. reflexivity.
  - apply (proj1 (proj2 (C6_Has_three_way "b" 1001 c)) _ Hd). simpl. lia.
  - apply (proj1 (proj2 (proj2 (C6_Has_three_way "b" 1002 c))) _ Hd); simpl; lia.
Defined.

Lemma C8_witness :
  let c := NewCache (V := boxed) [] in
  let c1 := {| data := <["" := mkCacheItem (Str "v") 1060]> (data c) |} in
  Cache_Set "" (Str "v") 60 1000 1000 c = (None, c1)
  ∧ Cache_Get Nil "" 1060 c1 = (Str "v", None, c1).
Proof.
  intros c c1.
  destruct (C8_empty_key_accepted Nil (Str "v") 60 1000 1000 c) as [H1 H2].
  - intros d Hd. vm_compute in Hd. discriminate.
  - split; [exact H1|]. apply (H2 1060). right. vm_compute. discriminate.
Defined.

Lemma C9_witness :
  let c1 := cache_after_Set "n" (Int 1) (-5) 1000 in
  data c1 !! "n" = Some (mkCacheItem (Int 1) 0)
  ∧ fst (Cache_Get Nil "n" 9000000000
           (run_calls Nil [CallSet "n" (Int 2) 7 2000 2000; CallGet "n" 3000] c1))
    = (Int 1, None).
Proof.
  intros c1.
  destruct (C9_nonpositive_ttl_never_expires Nil "n" (Int 1) (-5) 1000 1000
              (NewCache []) c1
              [CallSet "n" (Int 2) 7 2000 2000; CallGet "n" 3000] 9000000000)
    as [H1 H2].
  - lia.
  - vm_compute. reflexivity.
  - split; [exact H1|]. by rewrite H2.
Defined.

Lemma C10_witness :
  let c := cache_after_Set "b" (Int 1) 1 1000 in
  data (snd (Cache_Set "a" (Int 2) 0 1002 1002 c)) !! "b" = data c !! "b"
  ∧ data (snd (Cache_Has "a" 1002 c)) !! "b" = data c !! "b"
  ∧ data (snd (Cache_Get Nil "a" 1002 c)) !! "b" = data c !! "b".
Proof.
  intros c.
  destruct (C10_other_keys_untouched Nil "a" "b" (Int 2) 0 1002 1002 c)
    as (H1 & H2 & H3 & _).
  - discriminate.
  - by repeat split.
Defined.

(** ** Further properties of the methods *)

Section Further.

Context {V : Type}.
Variable nil_value : V.

Implicit Types (d : CacheItem V) (c : Cache V) (k key : string) (v : V).

(** Run from the cache the copy was taken from, the two continuations are
    the methods. *)
Lemma Cache_Set_by_locks key v ttl t t' c :
  Cache_Set key v ttl t t' c
  = Set_after_read (locked_read key c) key v ttl t t' c.
Proof. reflexivity. Qed.

Lemma Cache_Has_by_locks key t c :
  Cache_Has key t c = Has_after_read (locked_read key c) key t c.
Proof. reflexivity. Qed.

(** X1. A cache built without options holds nothing: on every key [Has]
    and [Get] answer [ErrKeyNotFound] and leave it as it is, and [Set]
    succeeds, leaving the one item it wrote. *)
Theorem X1_new_cache_holds_nothing k v ttl t t' :
  Cache_Has k t (NewCache (V := V) [])
  = (false, fmt_Errorf ErrKeyNotFound, NewCache [])
  ∧ Cache_Get nil_value k t (NewCache [])
    = (nil_value, fmt_Errorf ErrKeyNotFound, NewCache [])
  ∧ Cache_Set k v ttl t t' (NewCache [])
    = (None, {| data := {[ k := mkCacheItem v (if 0 <? ttl then Int64.add t' ttl else 0) ]} |}).
Proof.
  assert (Hnone : data (NewCache (V := V) []) !! k = None) by apply lookup_empty.
  split; [by apply Cache_Has_absent|].
  split; [by apply Cache_Get_absent|].
  rewrite (Cache_Set_absent _ _ _ _ _ _ Hnone). simpl.
  rewrite insert_empty. unfold Set_expiration. by rewrite Z.gtb_ltb.
Qed.

(** X2. The two outcomes of [Set]. Either the key holds an item with
    expiration [0] or above the clock, and [Set] returns [ErrKeyExists] and
    leaves the cache as it is; or the key holds no such item, and [Set]
    returns no error and leaves the cache with the new item under the key,
    its expiration [now + ttl] in [int64] if [ttl > 0] and [0] if not.
    [Set] returns no other error. *)
Theorem X2_Set_outcomes k v ttl t t' c :
  (Cache_Set k v ttl t t' c = (fmt_Errorf ErrKeyExists, c)
   ∧ ∃ d, data c !! k = Some d ∧ (expiration d = 0 ∨ t < expiration d))
  ∨ (Cache_Set k v ttl t t' c
     = (None, {| data := <[k := mkCacheItem v (if 0 <? ttl then Int64.add t' ttl else 0)]> (data c) |})
     ∧ ∀ d, data c !! k = Some d → expiration d ≠ 0 ∧ expiration d <= t).
Proof.
  assert (He : Set_expiration ttl t' = if 0 <? ttl then Int64.add t' ttl else 0)
    by (unfold Set_expiration; by rewrite Z.gtb_ltb).
  rewrite <- He.
  destruct (data c !! k) as [d|] eqn:Hd.
  - destruct (Set_blocked d t) eqn:Hb.
    + left. split; [by apply Cache_Set_blocked with (d := d)|].
      exists d. split; [done|]. by apply Set_blocked_true.
    + right. split; [by apply Cache_Set_lapsed with (d := d)|].
      intros d' [= <-]. by apply Set_blocked_false.
  - right. split; [by apply Cache_Set_absent | done].
Qed.

(** X3. The flag of [Has] is [true] exactly when its error is [nil], and its
    error is [nil], [ErrKeyNotFound] or [ErrExpired], never [ErrKeyExists].
    [Get] returns the error [Has] returns, and [nil] for the value whenever
    that error is not [nil]. *)
Theorem X3_Has_Get_results k t c :
  let '(b, e, _) := Cache_Has k t c in
  let '(v, e', _) := Cache_Get nil_value k t c in
  (b = true ↔ e = None)
  ∧ (e = None ∨ e = fmt_Errorf ErrKeyNotFound ∨ e = fmt_Errorf ErrExpired)
  ∧ e ≠ fmt_Errorf ErrKeyExists
  ∧ e' = e
  ∧ (e' ≠ None → v = nil_value).
Proof.
  destruct (data c !! k) as [d|] eqn:Hd.
  - destruct (Has_expired d t) eqn:He.
    + rewrite (Cache_Has_expired _ _ _ _ Hd He),
        (Cache_Get_expired nil_value _ _ _ _ Hd He).
      repeat split; try done. right. by right.
    + rewrite (Cache_Has_live _ _ _ _ Hd He),
        (Cache_Get_live nil_value _ _ _ _ Hd He).
      repeat split; try done. by left.
  - rewrite (Cache_Has_absent _ _ _ Hd), (Cache_Get_absent nil_value _ _ _ Hd).
    repeat split; try done. right. by left.
Qed.

(** X4. [Get] returns a value without error exactly when the key holds an
    item with that value whose expiration is [0] or not below the clock;
    the cache is then left as it is. *)
Theorem X4_Get_success_iff k t c v :
  (fst (Cache_Get nil_value k t c) = (v, None)
   ↔ ∃ d, data c !! k = Some d ∧ value d = v
          ∧ (expiration d = 0 ∨ t <= expiration d))
  ∧ (snd (fst (Cache_Get nil_value k t c)) = None →
     snd (Cache_Get nil_value k t c) = c).
Proof.
  destruct (data c !! k) as [d|] eqn:Hd.
  - destruct (Has_expired d t) eqn:He.
    + rewrite (Cache_Get_expired nil_value _ _ _ _ Hd He). simpl.
      apply Has_expired_true in He. split; [|done].
      split; [done|]. intros (d' & [= <-] & _ & H). lia.
    + rewrite (Cache_Get_live nil_value _ _ _ _ Hd He). simpl.
      apply Has_expired_false in He. split; [|done]. split.
      * intros [= <-]. by exists d.
      * by intros (d' & [= <-] & <- & _).
  - rewrite (Cache_Get_absent nil_value _ _ _ Hd). simpl. split; [|done].
    split; [done | by intros (d & ? & _)].
Qed.

Lemma Int64_wrap_above z :
  Int64.max_int < z → z <= 2 * Int64.max_int + 1 → Int64.wrap z = z - 2 ^ 64.
Proof.
  unfold Int64.max_int, Int64.wrap. intros Hlo Hhi.
  replace (z + 2 ^ 63) with (z - 2 ^ 64 + 2 ^ 63 + 1 * 2 ^ 64) by lia.
  rewrite Z_mod_plus_full, Z.mod_small; lia.
Qed.

Lemma run_call_other c (op : call) k :
  call_key op ≠ k → data (run_call nil_value c op) !! k = data c !! k.
Proof.
  destruct op as [key val ttl t t'|key t|key t]; simpl; intros Hne.
  - by apply Cache_Set_other.
  - by apply Cache_Get_other.
  - by apply Cache_Has_other.
Qed.

Lemma run_call_keeps_absent c (op : call) k :
  call_sets k op = false → data c !! k = None →
  data (run_call nil_value c op) !! k = None.
Proof.
  destruct op as [key val ttl t t'|key t|key t]; simpl; intros Hop Hk.
  - apply bool_decide_eq_false in Hop. by rewrite Cache_Set_other.
  - rewrite Cache_Get_cache.
    destruct (Cache_Has_cache key t c) as [-> | ->]; [done|]. simpl.
    destruct (decide (key = k)) as [->|Hne];
      [apply lookup_delete_eq | by rewrite lookup_delete_ne].
  - destruct (Cache_Has_cache key t c) as [-> | ->]; [done|]. simpl.
    destruct (decide (key = k)) as [->|Hne];
      [apply lookup_delete_eq | by rewrite lookup_delete_ne].
Qed.

(** X5. How long an item lives. After [Set] has stored an item with
    [ttl > 0], the sum [now + ttl] fitting [int64] and not being [0], [Get]
    returns the value, leaving the cache as it is, at every clock up to and
    including [now + ttl]; at every clock above, it returns [ErrExpired]
    and deletes the key. *)
Theorem X5_item_lifetime k v ttl t t' c c1 t3 :
  Cache_Set k v ttl t t' c = (None, c1) →
  0 < ttl → Int64.in_range (t' + ttl) → t' + ttl ≠ 0 →
  (t3 <= t' + ttl → Cache_Get nil_value k t3 c1 = (v, None, c1))
  ∧ (t' + ttl < t3 →
     Cache_Get nil_value k t3 c1
     = (nil_value, fmt_Errorf ErrExpired, {| data := delete k (data c1) |})).
Proof.
  intros Hset Hpos Hr Hnz.
  pose proof (Cache_Set_ok_lookup _ _ _ _ _ _ _ Hset) as Hd.
  rewrite Set_expiration_pos in Hd by done.
  unfold Int64.add in Hd. rewrite Int64_wrap_in_range in Hd by done.
  split; intros Ht3.
  - apply (Cache_Get_live nil_value k t3 c1 _ Hd).
    apply Has_expired_false. simpl. by right.
  - apply (Cache_Get_expired nil_value k t3 c1 _ Hd).
    apply Has_expired_true. simpl. by split.
Qed.

(** X6. A sum beyond [int64]. When the clock and [ttl] are [int64] values
    whose sum exceeds the largest one, [Set] stores the wrapped sum
    [now + ttl - 2^64], a negative expiration: the item is expired as soon
    as it is stored, and [Get] at any clock from the epoch on returns
    [ErrExpired] and deletes it. *)
Theorem X6_ttl_overflow_stores_expired_item k v ttl t t' c c1 t3 :
  Cache_Set k v ttl t t' c = (None, c1) →
  Int64.in_range t' → Int64.in_range ttl → Int64.max_int < t' + ttl →
  data c1 !! k = Some (mkCacheItem v (t' + ttl - 2 ^ 64))
  ∧ t' + ttl - 2 ^ 64 < 0
  ∧ (0 <= t3 →
     Cache_Get nil_value k t3 c1
     = (nil_value, fmt_Errorf ErrExpired, {| data := delete k (data c1) |})).
Proof.
  intros Hset Ht Httl Hsum.
  assert (Hbounds : 0 < ttl ∧ t' + ttl <= 2 * Int64.max_int + 1
                    ∧ t' + ttl - 2 ^ 64 < 0).
  { unfold Int64.in_range, Int64.min_int, Int64.max_int in *. lia. }
  destruct Hbounds as (Hpos & Hhi & Hneg).
  pose proof (Cache_Set_ok_lookup _ _ _ _ _ _ _ Hset) as Hd.
  rewrite Set_expiration_pos in Hd by done.
  unfold Int64.add in Hd. rewrite Int64_wrap_above in Hd by done.
  split; [done|]. split; [done|]. intros Ht3.
  apply (Cache_Get_expired nil_value k t3 c1 _ Hd).
  apply Has_expired_true. simpl. lia.
Qed.

(** X7. A sum that is [0]. When [ttl > 0] and the clock is [- ttl] (a clock
    before the epoch), the expiration [Set] stores is [0], which [Set] and
    [Has] read as "no expiration": the item is returned by [Get] at every
    clock, whatever calls are made in between. *)
Theorem X7_ttl_summing_to_zero_never_expires k v ttl t t' c c1 (ops : list call) t3 :
  Cache_Set k v ttl t t' c = (None, c1) →
  0 < ttl → t' + ttl = 0 →
  data c1 !! k = Some (mkCacheItem v 0)
  ∧ Cache_Get nil_value k t3 (run_calls nil_value ops c1)
    = (v, None, run_calls nil_value ops c1).
Proof.
  intros Hset Hpos Hsum.
  pose proof (Cache_Set_ok_lookup _ _ _ _ _ _ _ Hset) as Hd.
  rewrite Set_expiration_pos in Hd by done.
  unfold Int64.add in Hd. rewrite Hsum in Hd. change (Int64.wrap 0) with 0 in Hd.
  split; [done|].
  by apply (Cache_Get_unexpiring_after nil_value ops c1 k (mkCacheItem v 0) t3).
Qed.

(** X8. No call touches the item of a key it is not made with: after any
    sequence of calls none of which is made with key [k], the store holds
    under [k] what it held before, an expired item included (nothing sweeps
    the store). *)
Theorem X8_untouched_key_keeps_its_item (ops : list call) c k :
  Forall (λ op, call_key op ≠ k) ops →
  data (run_calls nil_value ops c) !! k = data c !! k.
Proof.
  intros Hops. revert c.
  induction Hops as [|op ops Hop _ IH]; intros c; [done|].
  simpl. rewrite IH. by apply run_call_other.
Qed.

(** X9. A key that is absent and on which no [Set] is made stays absent:
    after any sequence of calls without a [Set] on [k], [Has] and [Get] on
    [k] return [ErrKeyNotFound]. *)
Theorem X9_key_never_set_is_not_found (ops : list call) c k t :
  data c !! k = None →
  Forall (λ op, call_sets k op = false) ops →
  let c' := run_calls nil_value ops c in
  Cache_Has k t c' = (false, fmt_Errorf ErrKeyNotFound, c')
  ∧ Cache_Get nil_value k t c' = (nil_value, fmt_Errorf ErrKeyNotFound, c').
Proof.
  intros Hk Hops c'.
  assert (Hk' : data c' !! k = None).
  { subst c'. revert c Hk.
    induction Hops as [|op ops Hop _ IH]; intros c Hk; [done|].
    simpl. apply IH. by apply run_call_keeps_absent. }
  split; [by apply Cache_Has_absent | by apply Cache_Get_absent].
Qed.

(** X10. Keys of the store. After [Set], whatever it returns, the keys are
    those of before and the key of the call. [Has] and [Get] add no key,
    remove none but the key of the call, and leave every item they keep as
    it was. *)
Theorem X10_keys_of_the_store k v ttl t t' c :
  dom (data (snd (Cache_Set k v ttl t t' c))) = {[k]} ∪ dom (data c)
  ∧ dom (data (snd (Cache_Has k t c))) ⊆ dom (data c)
  ∧ dom (data c) ∖ {[k]} ⊆ dom (data (snd (Cache_Has k t c)))
  ∧ (∀ k' d, data (snd (Cache_Has k t c)) !! k' = Some d →
             data c !! k' = Some d)
  ∧ snd (Cache_Get nil_value k t c) = snd (Cache_Has k t c).
Proof.
  split; [|split; [|split; [|split]]].
  - destruct (data c !! k) as [d|] eqn:Hd.
    + destruct (Set_blocked d t) eqn:Hb.
      * rewrite (Cache_Set_blocked _ _ _ _ _ _ _ Hd Hb). simpl.
        assert (Hk : k ∈ dom (data c)) by (apply elem_of_dom; by exists d).
        symmetry. apply subseteq_union_1_L. by apply singleton_subseteq_l.
      * rewrite (Cache_Set_lapsed _ _ _ _ _ _ _ Hd Hb). simpl.
        apply dom_insert_L.
    + rewrite (Cache_Set_absent _ _ _ _ _ _ Hd). simpl. apply dom_insert_L.
  - destruct (Cache_Has_cache k t c) as [-> | ->]; [done|]. simpl.
    rewrite dom_delete_L. by apply subseteq_difference_l.
  - destruct (Cache_Has_cache k t c) as [-> | ->];
      [by apply subseteq_difference_l|]. simpl.
    by rewrite dom_delete_L.
  - intros k' d. destruct (Cache_Has_cache k t c) as [-> | ->]; [done|]. simpl.
    intros H. apply lookup_delete_Some in H. by destruct H.
  - apply Cache_Get_cache.
Qed.

(** X11. After [Has] on a key, a second [Has] or [Get] on it whose clock is
    not above that of the first never returns [ErrExpired] and leaves the
    cache as the first call left it. *)
Theorem X11_no_second_ErrExpired k t t' c :
  t' <= t →
  let c1 := snd (Cache_Has k t c) in
  snd (Cache_Has k t' c1) = c1
  ∧ snd (fst (Cache_Has k t' c1)) ≠ fmt_Errorf ErrExpired
  ∧ snd (Cache_Get nil_value k t' c1) = c1
  ∧ snd (fst (Cache_Get nil_value k t' c1)) ≠ fmt_Errorf ErrExpired.
Proof.
  intros Hle c1.
  assert (Hc1 : data c1 !! k = None
                ∨ ∃ d, data c1 !! k = Some d ∧ Has_expired d t' = false).
  { subst c1. destruct (data c !! k) as [d|] eqn:Hd.
    - destruct (Has_expired d t) eqn:He.
      + left. rewrite (Cache_Has_expired _ _ _ _ Hd He). apply lookup_delete_eq.
      + right. rewrite (Cache_Has_live _ _ _ _ Hd He). exists d.
        split; [done|]. apply Has_expired_false in He.
        apply Has_expired_false. lia.
    - left. by rewrite (Cache_Has_absent _ _ _ Hd). }
  destruct Hc1 as [Hn | (d & Hd & He)].
  - by rewrite (Cache_Has_absent _ _ _ Hn), (Cache_Get_absent nil_value _ _ _ Hn).
  - by rewrite (Cache_Has_live _ _ _ _ Hd He), (Cache_Get_live nil_value _ _ _ _ Hd He).
Qed.

(** X12. Two calls of [Set] on one key, interleaved. When both calls copy
    the item under the key before either writes, and the key holds no item
    blocking them, both return no error and the cache is left as if the
    first had never written: its item is gone. Run one after the other,
    the second is refused whenever the item of the first blocks it. *)
Theorem X12_interleaved_Sets_both_write k vA vB ttlA ttlB tA tA' tB tB' c :
  (∀ d, data c !! k = Some d →
        expiration d ≠ 0 ∧ expiration d <= tA ∧ expiration d <= tB) →
  let found := locked_read k c in
  let rA := Set_after_read found k vA ttlA tA tA' c in
  let rB := Set_after_read found k vB ttlB tB tB' (snd rA) in
  fst rA = None ∧ fst rB = None
  ∧ snd rB = locked_write k vB ttlB tB' c
  ∧ data (snd rB) !! k = Some (mkCacheItem vB (Set_expiration ttlB tB'))
  ∧ (Set_expiration ttlA tA' = 0 ∨ tB < Set_expiration ttlA tA' →
     Cache_Set k vB ttlB tB tB' (snd (Cache_Set k vA ttlA tA tA' c))
     = (fmt_Errorf ErrKeyExists, snd (Cache_Set k vA ttlA tA tA' c))).
Proof.
  intros Hfree found rA rB.
  assert (HA : rA = (None, locked_write k vA ttlA tA' c)
               ∧ rB = (None, locked_write k vB ttlB tB' (locked_write k vA ttlA tA' c))).
  { subst rA rB found. unfold Set_after_read, locked_read.
    destruct (data c !! k) as [d|] eqn:Hd; [|done].
    destruct (Hfree d eq_refl) as (Hnz & HtA & HtB).
    assert (Set_blocked d tA = false) as -> by (by apply Set_blocked_false).
    assert (Set_blocked d tB = false) as -> by (by apply Set_blocked_false).
    done. }
  destruct HA as [-> ->]. simpl.
  split; [done|]. split; [done|]. split; [|split].
  - unfold locked_write. simpl. by rewrite insert_insert_eq.
  - apply lookup_insert_eq.
  - intros Hlive.
    assert (HsetA : Cache_Set k vA ttlA tA tA' c
                    = (None, locked_write k vA ttlA tA' c)).
    { rewrite Cache_Set_by_locks. unfold Set_after_read, locked_read.
      destruct (data c !! k) as [d|] eqn:Hd; [|done].
      destruct (Hfree d eq_refl) as (Hnz & HtA & _).
      by assert (Set_blocked d tA = false) as -> by (by apply Set_blocked_false). }
    rewrite HsetA. simpl.
    apply Cache_Set_blocked with (d := mkCacheItem vA (Set_expiration ttlA tA')).
    + apply lookup_insert_eq.
    + by apply Set_blocked_true.
Qed.

(** X13. [Has] interleaved with [Set]. When [Has] has copied an expired item
    and, before it deletes, a call of [Set] on the key replaces that item,
    [Set] returns no error, [Has] returns [ErrExpired], and the delete of
    [Has] removes the item [Set] has just written: [Get] on the key then
    returns [ErrKeyNotFound]. *)
Theorem X13_late_delete_removes_new_item k v ttl tH tS tS' c d t :
  data c !! k = Some d →
  expiration d ≠ 0 → expiration d < tH → expiration d <= tS →
  let found := locked_read k c in
  let rS := Cache_Set k v ttl tS tS' c in
  let rH := Has_after_read found k tH (snd rS) in
  fst rS = None
  ∧ data (snd rS) !! k = Some (mkCacheItem v (Set_expiration ttl tS'))
  ∧ fst rH = (false, fmt_Errorf ErrExpired)
  ∧ data (snd rH) !! k = None
  ∧ Cache_Get nil_value k t (snd rH)
    = (nil_value, fmt_Errorf ErrKeyNotFound, snd rH).
Proof.
  intros Hd Hnz HtH HtS found rS rH.
  assert (HS : rS = (None, locked_write k v ttl tS' c)).
  { subst rS. apply Cache_Set_lapsed with (d := d); [done|].
    by apply Set_blocked_false. }
  assert (HH : rH = (false, fmt_Errorf ErrExpired, locked_delete k (snd rS))).
  { subst rH found. unfold Has_after_read, locked_read. rewrite Hd.
    by assert (Has_expired d tH = true) as -> by (by apply Has_expired_true). }
  rewrite HH, HS. simpl.
  assert (Hgone : data (locked_delete k (locked_write k v ttl tS' c)) !! k = None)
    by apply lookup_delete_eq.
  split; [done|]. split; [apply lookup_insert_eq|]. split; [done|].
  split; [done|]. by apply Cache_Get_absent.
Qed.

End Further.

(** ** Instances of the further properties *)

Lemma X5_witness :
  let c1 := cache_after_Set "s" (Int 1) 60 1000 in
  Cache_Get Nil "s" 1060 c1 = (Int 1, None, c1)
  ∧ Cache_Get Nil "s" 1061 c1
    = (Nil, fmt_Errorf ErrExpired, {| data := delete "s" (data c1) |}).
Proof.
  intros c1.
  assert (Hset : Cache_Set "s" (Int 1) 60 1000 1000 (NewCache []) = (None, c1))
    by (vm_compute; reflexivity).
  assert (Hr : Int64.in_range (1000 + 60))
    by (unfold Int64.in_range, Int64.min_int, Int64.max_int; lia).
  split.
  - apply (X5_item_lifetime Nil "s" (Int 1) 60 1000 1000 (NewCache []) c1 1060
             Hset); [lia | exact Hr | lia | lia].
  - apply (X5_item_lifetime Nil "s" (Int 1) 60 1000 1000 (NewCache []) c1 1061
             Hset); [lia | exact Hr | lia | lia].
Defined.

Lemma X6_witness :
  let c1 := cache_after_Set "o" (Int 1) Int64.max_int 1000 in
  data c1 !! "o" = Some (mkCacheItem (Int 1) (1000 + Int64.max_int - 2 ^ 64))
  ∧ Cache_Get Nil "o" 1000 c1
    = (Nil, fmt_Errorf ErrExpired, {| data := delete "o" (data c1) |}).
Proof.
  intros c1.
  destruct (X6_ttl_overflow_stores_expired_item Nil "o" (Int 1) Int64.max_int
              1000 1000 (NewCache []) c1 1000) as (H1 & _ & H3).
  - vm_compute. reflexivity.
  - unfold Int64.in_range, Int64.min_int, Int64.max_int. lia.
  - unfold Int64.in_range, Int64.min_int, Int64.max_int. lia.
  - unfold Int64.max_int. lia.
  - split; [exact H1 | apply H3; lia].
Defined.

Lemma X7_witness :
  let c1 := cache_after_Set "z" (Int 1) 5 (-5) in
  data c1 !! "z" = Some (mkCacheItem (Int 1) 0)
  ∧ fst (Cache_Get Nil "z" 1000
           (run_calls Nil [CallHas "z" 500; CallSet "z" (Int 2) 5 600 600] c1))
    = (Int 1, None).
Proof.
  intros c1.
  destruct (X7_ttl_summing_to_zero_never_expires Nil "z" (Int 1) 5 (-5) (-5)
              (NewCache []) c1
              [CallHas "z" 500; CallSet "z" (Int 2) 5 600 600] 1000)
    as [H1 H2].
  - vm_compute. reflexivity.
  - lia.
  - lia.
  - split; [exact H1 | by rewrite H2].
Defined.

Lemma X8_witness :
  let c := cache_after_Set "b" (Int 1) 1 1000 in
  let ops := [CallSet "a" (Int 2) 0 5000 5000; CallGet "z" 5000;
              CallHas "a" 6000] in
  data (run_calls Nil ops c) !! "b" = Some (mkCacheItem (Int 1) 1001).
Proof.
  intros c ops.
  rewrite (X8_untouched_key_keeps_its_item Nil ops c "b").
  - vm_compute. reflexivity.
  - repeat (constructor; [discriminate|]). constructor.
Defined.

Lemma X9_witness :
  let ops := [CallSet "a" (Int 2) 0 5000 5000; CallGet "e" 5000;
              CallHas "e" 6000] in
  let c' := run_calls Nil ops (NewCache []) in
  Cache_Has "e" 7000 c' = (false, fmt_Errorf ErrKeyNotFound, c').
Proof.
  intros ops c'.
  apply (X9_key_never_set_is_not_found Nil ops (NewCache []) "e" 7000).
  - vm_compute. reflexivity.
  - repeat (constructor; [reflexivity|]). constructor.
Defined.

Lemma X11_witness :
  let c := cache_after_Set "b" (Int 1) 1 1000 in
  let c1 := snd (Cache_Has "b" 1002 c) in
  snd (Cache_Has "b" 1002 c1) = c1
  ∧ snd (fst (Cache_Has "b" 1002 c1)) ≠ fmt_Errorf ErrExpired.
Proof.
  intros c c1.
  destruct (X11_no_second_ErrExpired Nil "b" 1002 1002 c) as (H1 & H2 & _).
  - lia.
  - split; [exact H1 | exact H2].
Defined.

Lemma X12_witness :
  let c := NewCache (V := boxed) [] in
  let found := locked_read "k" c in
  let rA := Set_after_read found "k" (Int 1) 0 1000 1000 c in
  let rB := Set_after_read found "k" (Int 2) 0 1000 1000 (snd rA) in
  fst rA = None ∧ fst rB = None
  ∧ data (snd rB) !! "k" = Some (mkCacheItem (Int 2) 0)
  ∧ fst (Cache_Set "k" (Int 2) 0 1000 1000
           (snd (Cache_Set "k" (Int 1) 0 1000 1000 c)))
    = fmt_Errorf ErrKeyExists.
Proof.
  intros c found rA rB.
  destruct (X12_interleaved_Sets_both_write "k" (Int 1) (Int 2) 0 0
              1000 1000 1000 1000 c) as (HA & HB & _ & Hk & Hseq).
  - intros d Hd. vm_compute in Hd. discriminate.
  - split; [exact HA|]. split; [exact HB|]. split; [exact Hk|].
    rewrite Hseq; [reflexivity|]. left. reflexivity.
Defined.

Lemma X13_witness :
  let c := cache_after_Set "r" (Int 1) 1 1000 in
  let rS := Cache_Set "r" (Int 2) 100 1002 1002 c in
  let rH := Has_after_read (locked_read "r" c) "r" 1002 (snd rS) in
  fst rS = None
  ∧ fst rH = (false, fmt_Errorf ErrExpired)
  ∧ Cache_Get Nil "r" 1002 (snd rH)
    = (Nil, fmt_Errorf ErrKeyNotFound, snd rH).
Proof.
  intros c rS rH.
  destruct (X13_late_delete_removes_new_item Nil "r" (Int 2) 100 1002 1002 1002
              c (mkCacheItem (Int 1) 1001) 1002) as (H1 & _ & H3 & _ & H5).
  - vm_compute. reflexivity.
  - simpl. lia.
  - simpl. lia.
  - simpl. lia.
  - split; [exact H1|]. split; [exact H3 | exact H5].
Defined.
